(** * nRF51 interrupt-table generator: a shallow embedding of
    [tools/nRF51_codegen.py] and the properties of its two stages, the
    interrupt table builder ([get_peripheral_interrupts]) and the macro
    emitter ([dump_macros], [dump_as_c_macro], [main]).

    Python strings are [string], Python ints are [Z], the 32-slot Python list
    is a [list string] read and written through Python's index rules
    (negative indices count from the end, anything else out of range raises
    [IndexError]), exceptions are the [Raise] case of [result], the output
    file is a text buffer that [print] extends by one line, and the file
    system is a finite map from paths to file contents.

    The device description comes from the [cmsis_svd] parser, which is not
    part of the program: the builder is a function of the parsed device.
    Every interrupt entry has an int [value] and a string [name];
    [assert] statements are executed (the interpreter does not run with
    [-O]); opening and writing the output file succeed. *)

From Stdlib Require Import ZArith Lia Ascii.
From stdpp Require Import base option list strings gmap.

(** ** Exceptions *)

Inductive exn : Type :=
| IndexError
| AssertionError.

Inductive result (A : Type) : Type :=
| Ok (a : A)
| Raise (e : exn).

Arguments Ok {A} a.
Arguments Raise {A} e.

#[global] Instance result_ret : MRet result := fun _ a => Ok a.

#[global] Instance result_bind : MBind result := fun _ _ k m =>
  match m with
  | Ok a => k a
  | Raise e => Raise e
  end.

(** [assert c] *)
Definition py_assert (c : bool) : result unit :=
  if c then Ok tt else Raise AssertionError.

(** A [for] loop whose body may raise: the loop state is threaded through
    the iterations and the first exception ends the loop. *)
Fixpoint for_each {A S : Type} (body : S -> A -> result S)
    (xs : list A) (s : S) : result S :=
  match xs with
  | [] => Ok s
  | x :: rest => s' ← body s x; for_each body rest s'
  end.

(** ** The parsed device description (what [cmsis_svd] hands over) *)

Record Interrupt : Type := { name : string; value : Z }.

Record Peripheral : Type := { interrupts : list Interrupt }.

Record Device : Type := { peripherals : list Peripheral }.

(** ** Python list indexing and truthiness *)

(** The position [l[i]] refers to in a list of length [len]. *)
Definition py_index (len : nat) (i : Z) : result nat :=
  let j := if (i <? 0)%Z then (i + Z.of_nat len)%Z else i in
  if ((j <? 0) || (Z.of_nat len <=? j))%Z then Raise IndexError
  else Ok (Z.to_nat j).

(** [l[i]] *)
Definition getitem (l : list string) (i : Z) : result string :=
  k ← py_index (length l) i;
  match l !! k with
  | Some x => Ok x
  | None => Raise IndexError
  end.

(** [l[i] = x] *)
Definition setitem (l : list string) (i : Z) (x : string) :
    result (list string) :=
  k ← py_index (length l) i;
  Ok (<[k := x]> l).

(** [if s:] on a string: the empty string is false, any other is true. *)
Definition truthy (s : string) : bool :=
  match s with
  | EmptyString => false
  | String _ _ => true
  end.

(** ** The interrupt table builder *)

(** Body of the inner loop of [get_peripheral_interrupts]. *)
Definition claim_slot (table : list string) (intr : Interrupt) :
    result (list string) :=
  cur ← getitem table (value intr);
  if truthy cur then
    cur' ← getitem table (value intr);
    _ ← py_assert (String.eqb cur' (name intr));
    Ok table
  else
    setitem table (value intr) (name intr).

Definition get_peripheral_interrupts (dev : Device) : result (list string) :=
  let table := replicate 32 "" in
  for_each (fun table peripheral =>
              for_each claim_slot (interrupts peripheral) table)
           (peripherals dev) table.

(** ** The macro emitter *)

Definition tab : string := String "009"%char "".
Definition newline : string := String "010"%char "".
Definition backslash : string := String "092"%char "".
Definition dquote : string := String "034"%char "".

(** [s * n] on a string *)
Fixpoint str_mul (s : string) (n : nat) : string :=
  match n with
  | O => ""
  | S n' => s +:+ str_mul s n'
  end.

(** [print(line, file=outfile)]: the text and a newline go to the end of the
    file. *)
Definition print (line : string) (outfile : string) : string :=
  outfile +:+ line +:+ newline.

(** [enumerate(lines)] *)
Definition enumerate {A : Type} (lines : list A) : list (nat * A) :=
  zip (seq 0 (length lines)) lines.

Definition dump_as_c_macro (name : string) (lines : list string)
    (outfile : string) (indent : nat) : string :=
  let outfile := print ("#define " +:+ name +:+ " " +:+ backslash) outfile in
  fold_left
    (fun outfile '(n, line) =>
       let line := str_mul tab indent +:+ line in
       let line :=
         if (Z.of_nat n <? Z.of_nat (length lines) - 1)%Z
         then line +:+ " " +:+ backslash
         else line in
       print line outfile)
    (enumerate lines) outfile.

(** The first loop of [dump_macros]: the body of the vector table. *)
Definition vector_lines (interrupts : list string) : list string :=
  fold_left
    (fun lines name =>
       if truthy name then lines ++ [name +:+ "_Handler,"]
       else lines ++ ["0, /* Reserved */"])
    interrupts [].

(** The second loop of [dump_macros]: the weak handler declarations. *)
Definition handler_lines (interrupts : list string) : list string :=
  fold_left
    (fun lines name =>
       if negb (truthy name) then lines
       else lines ++ [("void " +:+ name +:+ "_Handler(void) __attribute__ ")
                      +:+ ("((weak, alias(" +:+ dquote +:+ "Dummy_Handler"
                           +:+ dquote +:+ ")));")])
    interrupts [].

Definition dump_macros (interrupts : list string) (outfile : string) : string :=
  let outfile :=
    print "/* Automatically generated by nRF51_codegen.py */" outfile in
  let lines := vector_lines interrupts in
  let outfile :=
    dump_as_c_macro "PERIPHERAL_INTERRUPT_VECTORS" lines outfile 1 in
  let lines := handler_lines interrupts in
  dump_as_c_macro "PERIPHERAL_INTERRUPT_HANDLERS" lines outfile 0.

(** ** The program *)

Definition output_path : string :=
  "src/chips/nrf51822/peripheral_interrupts.h".

(** [open(path, "w")]: the file exists and is empty afterwards; the handle
    is the text written so far. *)
Definition open_w (path : string) (fs : gmap string string) :
    gmap string string * string :=
  (<[path := ""]> fs, "").

(** [main], run on the parsed device and a file system: the outcome and
    the file system it leaves. The table is built first; the output file is
    opened only once the builder has returned. *)
Definition main (dev : Device) (fs : gmap string string) :
    result unit * gmap string string :=
  match get_peripheral_interrupts dev with
  | Raise e => (Raise e, fs)
  | Ok interrupts =>
      let '(fs, outfile) := open_w output_path fs in
      let outfile := dump_macros interrupts outfile in
      (Ok tt, <[output_path := outfile]> fs)
  end.

(** ** Views used in the statements *)

(** All interrupt entries of the device in the order the two nested loops
    visit them. *)
Definition entries (dev : Device) : list Interrupt :=
  mjoin (interrupts <$> peripherals dev).

(** The first non-empty name among the entries that address slot [k] of a
    table of [len] slots; [""] when there is none. *)
Fixpoint first_name (len k : nat) (es : list Interrupt) : string :=
  match es with
  | [] => ""
  | i :: rest =>
      match py_index len (value i) with
      | Ok k' =>
          if bool_decide (k' = k) && truthy (name i) then name i
          else first_name len k rest
      | Raise _ => first_name len k rest
      end
  end.

(** ** Valid descriptions *)

(** Every interrupt number is a slot number. *)
Definition numbers_in_range (es : list Interrupt) : Prop :=
  Forall (fun i => (0 <= value i < 32)%Z) es.

(** Entries that declare the same number declare the same name. *)
Definition consistent_names (es : list Interrupt) : Prop :=
  Forall (fun i1 =>
            Forall (fun i2 => value i1 = value i2 -> name i1 = name i2) es)
         es.

Definition valid (dev : Device) : Prop :=
  numbers_in_range (entries dev) /\ consistent_names (entries dev).

(** ** The text of the file *)

(** The text of a sequence of printed lines. *)
Fixpoint unlines (ls : list string) : string :=
  match ls with
  | [] => ""
  | l :: rest => l +:+ newline +:+ unlines rest
  end.

(** Line [n] of a macro body of [total] lines as it is written: indented,
    and continued unless it is the last one. *)
Definition continued (indent total n : nat) (line : string) : string :=
  str_mul tab indent +:+ line
  +:+ (if bool_decide (n + 1 < total) then " " +:+ backslash else "").

(** The lines [dump_as_c_macro] prints. *)
Definition macro_text (name : string) (indent : nat) (lines : list string) :
    list string :=
  ("#define " +:+ name +:+ " " +:+ backslash)
  :: imap (continued indent (length lines)) lines.

(** The declaration the second loop appends for the name [N]. *)
Definition weak_alias (N : string) : string :=
  "void " +:+ N +:+ "_Handler(void) __attribute__ ((weak, alias("
  +:+ dquote +:+ "Dummy_Handler" +:+ dquote +:+ ")));".

(** The lines [dump_macros] prints. *)
Definition file_lines (interrupts : list string) : list string :=
  "/* Automatically generated by nRF51_codegen.py */"
  :: macro_text "PERIPHERAL_INTERRUPT_VECTORS" 1 (vector_lines interrupts)
  ++ macro_text "PERIPHERAL_INTERRUPT_HANDLERS" 0 (handler_lines interrupts).

(** A printed line that opens a macro definition. *)
Definition is_define (line : string) : bool := String.prefix "#define " line.

(** Blanks at the front of a reversed text. *)
Fixpoint drop_blanks (cs : list ascii) : list ascii :=
  match cs with
  | c :: rest => if Ascii.is_space c then drop_blanks rest else cs
  | [] => []
  end.

(** In a reversed text, everything up to and including the comment opener. *)
Fixpoint drop_to_comment_open (cs : list ascii) : list ascii :=
  match cs with
  | c :: rest =>
      match c, rest with
      | "*"%char, "/"%char :: rest' => rest'
      | _, _ => drop_to_comment_open rest
      end
  | [] => []
  end.

(** A reversed text without the C comment it ends with, if it ends with
    one. *)
Definition drop_trailing_comment (cs : list ascii) : list ascii :=
  match cs with
  | "/"%char :: "*"%char :: rest => drop_to_comment_open rest
  | _ => cs
  end.

(** An initializer entry is comma-terminated when, blanks and a closing
    comment aside, its text ends with a comma. *)
Definition comma_terminated (entry : string) : bool :=
  match drop_blanks (drop_trailing_comment
                       (drop_blanks (rev (String.list_ascii_of_string entry))))
  with
  | ","%char :: _ => true
  | _ => false
  end.

(** ** Sample descriptions *)

Definition irq (n : Z) (s : string) : Interrupt := {| name := s; value := n |}.

Definition device_of (ps : list (list Interrupt)) : Device :=
  {| peripherals := (fun intrs => {| interrupts := intrs |}) <$> ps |}.

(** POWER and CLOCK share interrupt 0 under one name, RADIO has 1. *)
Definition power_clock_radio : Device :=
  device_of [[irq 0 "POWER_CLOCK"]; [irq 0 "POWER_CLOCK"]; [irq 1 "RADIO"]].

Definition power_clock_radio_table : list string :=
  ["POWER_CLOCK"; "RADIO"] ++ replicate 30 "".

(** Two peripherals claim interrupt 0 under different names. *)
Definition conflicting : Device :=
  device_of [[irq 0 "POWER_CLOCK"]; [irq 1 "RADIO"; irq 0 "TIMER0"]].

(** An entry with a number beyond the table stands between two peripherals'
    claims of interrupt 0 under different names. *)
Definition index_error_before_conflict : Device :=
  device_of [[irq 0 "POWER_CLOCK"]; [irq 40 "GPIOTE"; irq 0 "TIMER0"]].

(** The number of newline characters of a text: its number of lines when
    every line is ended by one. *)
Fixpoint count_newlines (s : string) : nat :=
  match s with
  | EmptyString => 0
  | String c rest =>
      (if Ascii.eqb c "010"%char then 1 else 0) + count_newlines rest
  end.

(** * Properties *)

(** ** Loops and exceptions *)

Lemma bind_Ok {A B : Type} (k : A -> result B) (m : result A) (b : B) :
  (a ← m; k a) = Ok b <-> exists a, m = Ok a /\ k a = Ok b.
Proof.
  destruct m as [a|e]; simpl; split.
  - intros H. exists a. split; [reflexivity | exact H].
  - intros (a' & Ha & Hk). injection Ha as <-. exact Hk.
  - discriminate.
  - intros (a' & Ha & _). discriminate.
Qed.

Lemma for_each_app {A S : Type} (body : S -> A -> result S) xs ys s :
  for_each body (xs ++ ys) s = (s' ← for_each body xs s; for_each body ys s').
Proof.
  revert s. induction xs as [|x xs IH]; intros s; simpl; [reflexivity|].
  destruct (body s x) as [s'|e]; simpl; [apply IH | reflexivity].
Qed.

Lemma for_each_concat {A B S : Type} (body : S -> A -> result S)
    (f : B -> list A) (ys : list B) (s : S) :
  for_each (fun s y => for_each body (f y) s) ys s
  = for_each body (mjoin (f <$> ys)) s.
Proof.
  revert s. induction ys as [|y ys IH]; intros s; simpl; [reflexivity|].
  rewrite for_each_app.
  destruct (for_each body (f y) s) as [s'|e]; simpl; [apply IH | reflexivity].
Qed.

Lemma get_peripheral_interrupts_entries dev :
  get_peripheral_interrupts dev
  = for_each claim_slot (entries dev) (replicate 32 "").
Proof. unfold get_peripheral_interrupts, entries. apply for_each_concat. Qed.

(** ** Indexing *)

Lemma truthy_true s : truthy s = true <-> s <> "".
Proof. destruct s; simpl; split; congruence. Qed.

Lemma truthy_false s : truthy s = false <-> s = "".
Proof. destruct s; simpl; split; congruence. Qed.

Lemma py_index_Ok len i k :
  py_index len i = Ok k <->
  (k < len /\ ((0 <= i)%Z /\ i = Z.of_nat k
               \/ (i < 0)%Z /\ (i + Z.of_nat len)%Z = Z.of_nat k)).
Proof.
  unfold py_index.
  destruct (Z.ltb_spec i 0) as [Hneg|Hpos].
  - destruct (Z.ltb_spec (i + Z.of_nat len) 0) as [H1|H1]; simpl.
    { split; [discriminate | lia]. }
    destruct (Z.leb_spec (Z.of_nat len) (i + Z.of_nat len)) as [H2|H2].
    { lia. }
    split.
    + intros [= <-]. lia.
    + intros [Hk [[? ?] | [_ Heq]]]; [lia|]. f_equal. lia.
  - destruct (Z.ltb_spec i 0) as [H1|H1]; [lia|]. simpl.
    destruct (Z.leb_spec (Z.of_nat len) i) as [H2|H2].
    { split; [discriminate | lia]. }
    split.
    + intros [= <-]. lia.
    + intros [Hk [[_ Heq] | [? _]]]; [|lia]. f_equal. lia.
Qed.

Lemma py_index_Raise len i e :
  py_index len i = Raise e <->
  (e = IndexError /\ ((i < - Z.of_nat len)%Z \/ (Z.of_nat len <= i)%Z)).
Proof.
  unfold py_index.
  destruct (Z.ltb_spec i 0) as [Hneg|Hpos].
  - destruct (Z.ltb_spec (i + Z.of_nat len) 0) as [H1|H1]; simpl.
    { split; [intros [= <-]; split; [reflexivity | lia]|].
      intros [-> _]; reflexivity. }
    destruct (Z.leb_spec (Z.of_nat len) (i + Z.of_nat len)) as [H2|H2]; [lia|].
    split; [discriminate | lia].
  - destruct (Z.ltb_spec i 0) as [H1|H1]; [lia|]. simpl.
    destruct (Z.leb_spec (Z.of_nat len) i) as [H2|H2].
    { split; [intros [= <-]; split; [reflexivity | lia]|].
      intros [-> _]; reflexivity. }
    split; [discriminate | lia].
Qed.

(** What one pass through the loop body does, by cases. *)
Lemma claim_slot_unfold table intr :
  claim_slot table intr =
  match py_index (length table) (value intr) with
  | Raise _ => Raise IndexError
  | Ok k =>
      match table !! k with
      | None => Raise IndexError
      | Some cur =>
          if truthy cur then
            if String.eqb cur (name intr) then Ok table
            else Raise AssertionError
          else Ok (<[k := name intr]> table)
      end
  end.
Proof.
  unfold claim_slot, getitem, setitem.
  destruct (py_index (length table) (value intr)) as [k|e] eqn:Hk; simpl.
  - destruct (table !! k) as [cur|]; simpl; [|reflexivity].
    destruct (truthy cur); [|reflexivity].
    destruct (String.eqb cur (name intr)); reflexivity.
  - apply py_index_Raise in Hk as [-> _]. reflexivity.
Qed.

(** ** The table while the loop runs *)

Lemma claim_slot_Ok table intr table' :
  claim_slot table intr = Ok table' ->
  exists k cur,
    py_index (length table) (value intr) = Ok k /\ table !! k = Some cur /\
    (cur <> "" /\ cur = name intr /\ table' = table
     \/ cur = "" /\ table' = <[k := name intr]> table).
Proof.
  rewrite claim_slot_unfold.
  destruct (py_index (length table) (value intr)) as [k|e]; [|discriminate].
  destruct (table !! k) as [cur|] eqn:Hcur; [|discriminate].
  destruct (truthy cur) eqn:Ht.
  - destruct (String.eqb_spec cur (name intr)) as [Heq|Hne]; [|discriminate].
    intros [= <-]. exists k, cur. apply truthy_true in Ht. tauto.
  - intros [= <-]. exists k, cur. apply truthy_false in Ht. tauto.
Qed.

Lemma claim_slot_length table intr table' :
  claim_slot table intr = Ok table' -> length table' = length table.
Proof.
  intros (k & cur & _ & _ & [(_ & _ & ->) | (_ & ->)])%claim_slot_Ok;
    [reflexivity | apply length_insert].
Qed.

Lemma for_each_claim_length es table table' :
  for_each claim_slot es table = Ok table' -> length table' = length table.
Proof.
  revert table. induction es as [|i es IH]; intros table; simpl.
  - intros [= <-]. reflexivity.
  - intros (t1 & H1 & H2)%bind_Ok.
    rewrite (IH _ H2). eapply claim_slot_length, H1.
Qed.

(** Slot by slot: a slot that was filled keeps its name, an empty one ends
    with the first non-empty name declared for it. *)
Lemma for_each_claim_lookup es table table' k cur :
  for_each claim_slot es table = Ok table' ->
  table !! k = Some cur ->
  table' !! k
  = Some (if truthy cur then cur else first_name (length table) k es).
Proof.
  revert table cur. induction es as [|i es IH]; intros table cur; simpl.
  - intros [= <-] Hk. rewrite Hk. f_equal.
    destruct (truthy cur) eqn:Ht; [reflexivity|]. by apply truthy_false.
  - intros (t1 & H1 & H2)%bind_Ok Hk.
    pose proof (claim_slot_length _ _ _ H1) as Hlen.
    apply claim_slot_Ok in H1
      as (k0 & c0 & Hidx & Hc0 & [(Hne & Heq & ->) | (-> & ->)]).
    + rewrite (IH _ _ H2 Hk), Hidx.
      destruct (truthy cur) eqn:Ht; [reflexivity|].
      case_bool_decide as Hkk; simpl; [|reflexivity].
      subst k0. rewrite Hk in Hc0. injection Hc0 as <-.
      apply truthy_true in Hne. congruence.
    + rewrite Hidx. rewrite <- Hlen.
      destruct (decide (k0 = k)) as [->|Hkk].
      * rewrite Hk in Hc0. injection Hc0 as ->. simpl.
        rewrite bool_decide_eq_true_2 by reflexivity. simpl.
        apply (IH _ (name i) H2).
        apply list_lookup_insert_eq. by eapply lookup_lt_Some.
      * rewrite bool_decide_eq_false_2 by exact Hkk. simpl.
        apply (IH _ cur H2).
        by rewrite list_lookup_insert_ne.
Qed.

Lemma for_each_claim_kept es table table' k n :
  for_each claim_slot es table = Ok table' ->
  table !! k = Some n -> n <> "" -> table' !! k = Some n.
Proof.
  intros Hrun Hk Hn. rewrite (for_each_claim_lookup _ _ _ _ _ Hrun Hk).
  apply truthy_true in Hn. by rewrite Hn.
Qed.

(** After a successful run every entry with a non-empty name finds its own
    name in its slot. *)
Lemma for_each_claim_named es table table' i :
  for_each claim_slot es table = Ok table' ->
  i ∈ es -> name i <> "" ->
  exists k, py_index (length table) (value i) = Ok k
            /\ table' !! k = Some (name i).
Proof.
  intros Hrun (pre & post & ->)%list_elem_of_split Hn.
  rewrite for_each_app in Hrun.
  apply bind_Ok in Hrun as (t1 & Hpre & Hrun). simpl in Hrun.
  apply bind_Ok in Hrun as (t2 & Hi & Hpost).
  pose proof (for_each_claim_length _ _ _ Hpre) as Hlen.
  apply claim_slot_Ok in Hi
    as (k & cur & Hidx & Hcur & [(_ & -> & ->) | (-> & ->)]);
    rewrite Hlen in Hidx; exists k; (split; [exact Hidx|]).
  - by eapply for_each_claim_kept.
  - eapply for_each_claim_kept; [exact Hpost | | exact Hn].
    apply list_lookup_insert_eq. by eapply lookup_lt_Some.
Qed.

(** Numbers that index the table never raise [IndexError]. *)
Lemma for_each_claim_no_IndexError es table :
  Forall (fun i => (- Z.of_nat (length table) <= value i
                    < Z.of_nat (length table))%Z) es ->
  for_each claim_slot es table <> Raise IndexError.
Proof.
  revert table. induction es as [|i es IH]; intros table Hr; simpl.
  { discriminate. }
  apply Forall_cons in Hr as [Hi Hr].
  destruct (claim_slot table i) as [t1|e] eqn:H1; simpl.
  - apply IH. by rewrite (claim_slot_length _ _ _ H1).
  - rewrite claim_slot_unfold in H1.
    destruct (py_index (length table) (value i)) as [k|e'] eqn:Hidx.
    + apply py_index_Ok in Hidx as [Hk _].
      destruct (lookup_lt_is_Some_2 table k Hk) as [cur Hcur].
      rewrite Hcur in H1.
      destruct (truthy cur); [|discriminate].
      destruct (String.eqb cur (name i)); [discriminate|]. congruence.
    + apply py_index_Raise in Hidx as [_ Hidx]. lia.
Qed.

(** ** Valid descriptions *)

Lemma consistent_names_cons i es :
  consistent_names (i :: es) ->
  consistent_names es
  /\ (forall i', i' ∈ es -> value i = value i' -> name i = name i').
Proof.
  unfold consistent_names. rewrite Forall_cons.
  intros [Hi Hes]. split.
  - eapply Forall_impl; [exact Hes|]. simpl. intros i1 H1.
    by apply Forall_cons in H1 as [_ H1].
  - intros i' Hin. apply Forall_cons in Hi as [_ Hi].
    rewrite Forall_forall in Hi. by apply Hi.
Qed.

(** The loop runs to its end on in-range, consistent entries, from any
    table that agrees with them. *)
Lemma for_each_claim_total es table :
  Forall (fun i => (0 <= value i < Z.of_nat (length table))%Z) es ->
  consistent_names es ->
  (forall k n i, table !! k = Some n -> n <> "" -> i ∈ es ->
                 value i = Z.of_nat k -> name i = n) ->
  exists table', for_each claim_slot es table = Ok table'.
Proof.
  revert table. induction es as [|i es IH]; intros table Hr Hc Hagree; simpl.
  { by eexists. }
  apply Forall_cons in Hr as [Hi Hr].
  apply consistent_names_cons in Hc as [Hc Hsame].
  rewrite claim_slot_unfold.
  destruct (py_index (length table) (value i)) as [k|e] eqn:Hidx.
  2:{ apply py_index_Raise in Hidx as [_ Hidx]. lia. }
  apply py_index_Ok in Hidx as [Hk Hidx].
  assert (value i = Z.of_nat k) as Hv by lia.
  destruct (lookup_lt_is_Some_2 table k Hk) as [cur Hcur]. rewrite Hcur.
  destruct (truthy cur) eqn:Ht.
  - apply truthy_true in Ht.
    rewrite (Hagree k cur i Hcur Ht) by (done || apply list_elem_of_here).
    rewrite String.eqb_refl. simpl.
    apply IH; [exact Hr | exact Hc |].
    intros k' n i' Hk' Hn Hin. apply Hagree; [done | done |].
    by apply list_elem_of_further.
  - simpl. apply IH.
    + by rewrite length_insert.
    + exact Hc.
    + intros k' n i' Hk' Hn Hin Hv'.
      destruct (decide (k = k')) as [<-|Hkk].
      * rewrite list_lookup_insert_eq in Hk' by exact Hk.
        injection Hk' as <-. symmetry. apply Hsame; [exact Hin | congruence].
      * rewrite list_lookup_insert_ne in Hk' by exact Hkk.
        apply (Hagree k' n i'); [done | done | | done].
        by apply list_elem_of_further.
Qed.

Lemma valid_builds dev :
  valid dev -> exists table, get_peripheral_interrupts dev = Ok table.
Proof.
  intros [Hr Hc]. rewrite get_peripheral_interrupts_entries.
  apply for_each_claim_total; [| exact Hc |].
  - rewrite length_replicate. exact Hr.
  - intros k n i Hk Hn. apply lookup_replicate in Hk as [-> _]. done.
Qed.

Lemma builds_length dev table :
  get_peripheral_interrupts dev = Ok table -> length table = 32.
Proof.
  rewrite get_peripheral_interrupts_entries.
  intros ->%for_each_claim_length. apply length_replicate.
Qed.

(** ** Text *)

Lemma str_app_nil_l s : "" +:+ s = s.
Proof. reflexivity. Qed.

Lemma str_app_cons c s1 s2 : String c s1 +:+ s2 = String c (s1 +:+ s2).
Proof. reflexivity. Qed.

Lemma str_app_nil_r s : s +:+ "" = s.
Proof.
  induction s as [|c s IH]; [reflexivity|]. by rewrite str_app_cons, IH.
Qed.

Lemma str_app_assoc s1 s2 s3 : (s1 +:+ s2) +:+ s3 = s1 +:+ (s2 +:+ s3).
Proof.
  induction s1 as [|c s1 IH]; [reflexivity|]. by rewrite !str_app_cons, IH.
Qed.

Lemma unlines_app ls1 ls2 : unlines (ls1 ++ ls2) = unlines ls1 +:+ unlines ls2.
Proof.
  induction ls1 as [|l ls1 IH]; simpl; [reflexivity|].
  by rewrite IH, !str_app_assoc.
Qed.

Lemma dump_body_unlines indent total lines j outfile :
  fold_left
    (fun outfile '(n, line) =>
       let line := str_mul tab indent +:+ line in
       let line :=
         if (Z.of_nat n <? Z.of_nat total - 1)%Z
         then line +:+ " " +:+ backslash
         else line in
       print line outfile)
    (zip (seq j (length lines)) lines) outfile
  = outfile +:+ unlines (imap (fun n => continued indent total (j + n)) lines).
Proof.
  revert j outfile. induction lines as [|l lines IH]; intros j outfile; simpl.
  { by rewrite str_app_nil_r. }
  rewrite IH. unfold print. rewrite !str_app_assoc. f_equal. f_equal.
  - unfold continued. rewrite Nat.add_0_r.
    destruct (Z.ltb_spec (Z.of_nat j) (Z.of_nat total - 1)) as [Hlt|Hge].
    + by rewrite bool_decide_eq_true_2 by lia.
    + rewrite bool_decide_eq_false_2 by lia. by rewrite str_app_nil_r.
  - do 2 f_equal. apply imap_ext. intros n x _. simpl. f_equal. lia.
Qed.

Lemma dump_as_c_macro_unlines name lines outfile indent :
  dump_as_c_macro name lines outfile indent
  = outfile +:+ unlines (macro_text name indent lines).
Proof.
  unfold dump_as_c_macro, enumerate. rewrite dump_body_unlines.
  unfold print, macro_text. simpl. by rewrite !str_app_assoc.
Qed.

(** The two loops of [dump_macros] as a map and a filter. *)
Lemma vector_lines_map interrupts :
  vector_lines interrupts
  = (fun name => if truthy name then name +:+ "_Handler,"
                 else "0, /* Reserved */") <$> interrupts.
Proof.
  unfold vector_lines.
  enough (forall acc,
    fold_left
      (fun lines name =>
         if truthy name then lines ++ [name +:+ "_Handler,"]
         else lines ++ ["0, /* Reserved */"]) interrupts acc
    = acc ++ ((fun name => if truthy name then name +:+ "_Handler,"
                           else "0, /* Reserved */") <$> interrupts))
    as H by apply (H []).
  induction interrupts as [|n t IH]; intros acc; simpl.
  { by rewrite app_nil_r. }
  rewrite IH. destruct (truthy n); by rewrite <- app_assoc.
Qed.

Lemma handler_lines_filter interrupts :
  handler_lines interrupts
  = (fun name => "void " +:+ name
                 +:+ "_Handler(void) __attribute__ ((weak, alias("
                 +:+ dquote +:+ "Dummy_Handler" +:+ dquote +:+ ")));")
    <$> filter (fun name => name <> "") interrupts.
Proof.
  unfold handler_lines.
  enough (forall acc,
    fold_left
      (fun lines name =>
         if negb (truthy name) then lines
         else lines ++ [("void " +:+ name +:+ "_Handler(void) __attribute__ ")
                        +:+ ("((weak, alias(" +:+ dquote +:+ "Dummy_Handler"
                             +:+ dquote +:+ ")));")]) interrupts acc
    = acc ++ ((fun name => "void " +:+ name
                 +:+ "_Handler(void) __attribute__ ((weak, alias("
                 +:+ dquote +:+ "Dummy_Handler" +:+ dquote +:+ ")));")
              <$> filter (fun name => name <> "") interrupts))
    as H by apply (H []).
  induction interrupts as [|n t IH]; intros acc; simpl.
  { by rewrite app_nil_r. }
  rewrite IH. destruct (truthy n) eqn:Ht; simpl.
  - apply truthy_true in Ht. rewrite filter_cons_True by exact Ht.
    rewrite <- app_assoc. simpl. do 2 f_equal.
    by rewrite !str_app_assoc.
  - apply truthy_false in Ht. by rewrite filter_cons_False by tauto.
Qed.

Lemma dump_macros_unlines interrupts outfile :
  dump_macros interrupts outfile
  = outfile +:+ unlines
      ("/* Automatically generated by nRF51_codegen.py */"
       :: macro_text "PERIPHERAL_INTERRUPT_VECTORS" 1 (vector_lines interrupts)
       ++ macro_text "PERIPHERAL_INTERRUPT_HANDLERS" 0
            (handler_lines interrupts)).
Proof.
  unfold dump_macros. rewrite !dump_as_c_macro_unlines.
  unfold print. cbn [unlines]. rewrite unlines_app.
  by rewrite !str_app_assoc.
Qed.

(** * The interrupt table builder *)

(** C1. The builder visits the interrupt entries of all peripherals in
    order, one [claim_slot] each, starting from 32 empty slots. On an entry
    whose number addresses slot [k]: if the slot is filled (holds a non-empty
    name) the run goes on with the table unchanged when that name equals the
    entry's name and ends with [AssertionError] when it differs; if the slot
    is not filled it receives the entry's name. An exception raised at an
    entry is the outcome of the whole run. So a successful run returns
    32 slots, each holding the first name that filled it: the first
    non-empty name declared for that slot, or nothing if there is none. *)
Theorem builder_first_name_kept (dev : Device) :
  get_peripheral_interrupts dev
  = for_each claim_slot (entries dev) (replicate 32 "")
  /\ (forall table intr k cur,
        py_index (length table) (value intr) = Ok k ->
        table !! k = Some cur ->
        claim_slot table intr
        = if decide (cur = "") then Ok (<[k := name intr]> table)
          else if decide (cur = name intr) then Ok table
               else Raise AssertionError)
  /\ (forall pre intr post table e,
        entries dev = pre ++ intr :: post ->
        for_each claim_slot pre (replicate 32 "") = Ok table ->
        claim_slot table intr = Raise e ->
        get_peripheral_interrupts dev = Raise e)
  /\ (forall table,
        get_peripheral_interrupts dev = Ok table ->
        length table = 32
        /\ forall k, k < 32 ->
             table !! k = Some (first_name 32 k (entries dev))).
Proof.
  split; [apply get_peripheral_interrupts_entries|]. split; [|split].
  - intros table intr k cur Hidx Hcur.
    rewrite claim_slot_unfold, Hidx, Hcur.
    destruct (decide (cur = "")) as [->|Hne]; [reflexivity|].
    apply truthy_true in Hne as ->.
    destruct (String.eqb_spec cur (name intr)) as [Heq|Hneq].
    + by rewrite decide_True.
    + by rewrite decide_False.
  - intros pre intr post table e Hes Hpre Hstep.
    rewrite get_peripheral_interrupts_entries, Hes, for_each_app, Hpre.
    simpl. by rewrite Hstep.
  - intros table Hrun. split; [by eapply builds_length|].
    intros k Hk. rewrite get_peripheral_interrupts_entries in Hrun.
    rewrite (for_each_claim_lookup _ _ _ k "" Hrun).
    + by rewrite length_replicate.
    + by apply lookup_replicate.
Qed.

Lemma builder_first_name_kept_witness :
  claim_slot power_clock_radio_table (irq 1 "TIMER0") = Raise AssertionError
  /\ claim_slot power_clock_radio_table (irq 2 "TIMER0")
     = Ok (["POWER_CLOCK"; "RADIO"; "TIMER0"] ++ replicate 29 "")
  /\ get_peripheral_interrupts conflicting = Raise AssertionError
  /\ power_clock_radio_table !! 0 = Some "POWER_CLOCK".
Proof.
  destruct (builder_first_name_kept power_clock_radio)
    as (_ & Hstep & _ & Hend).
  destruct (builder_first_name_kept conflicting) as (_ & _ & Hraise & _).
  split; [|split; [|split]].
  - apply (Hstep power_clock_radio_table (irq 1 "TIMER0") 1 "RADIO");
      reflexivity.
  - apply (Hstep power_clock_radio_table (irq 2 "TIMER0") 2 "");
      reflexivity.
  - apply (Hraise [irq 0 "POWER_CLOCK"; irq 1 "RADIO"] (irq 0 "TIMER0") []
                  power_clock_radio_table); reflexivity.
  - apply (Hend power_clock_radio_table); [reflexivity | lia].
Defined.

Lemma elem_of_entries dev p i :
  p ∈ peripherals dev -> i ∈ interrupts p -> i ∈ entries dev.
Proof.
  intros Hp Hi. unfold entries. apply list_elem_of_join.
  exists (interrupts p). split; [exact Hi|]. by apply list_elem_of_fmap_2.
Qed.

Lemma main_unfold dev fs :
  main dev fs =
  match get_peripheral_interrupts dev with
  | Raise e => (Raise e, fs)
  | Ok table => (Ok tt, <[output_path := dump_macros table ""]> fs)
  end.
Proof.
  unfold main, open_w.
  destruct (get_peripheral_interrupts dev); [|reflexivity].
  by rewrite insert_insert_eq.
Qed.

(** C2, amended. When two peripherals declare the same interrupt number
    under different non-empty names, the run ends with an exception and the
    file system is exactly what it was: the output file is neither opened
    nor written. The exception is [AssertionError] whenever every number of
    the description indexes the table (-32..31); it can be [IndexError] only
    when some entry's number is outside that range. *)
Theorem conflict_fails_before_output (dev : Device) (fs : gmap string string)
    (a b : nat) (p1 p2 : Peripheral) (i1 i2 : Interrupt) :
  peripherals dev !! a = Some p1 ->
  peripherals dev !! b = Some p2 ->
  a <> b ->
  i1 ∈ interrupts p1 ->
  i2 ∈ interrupts p2 ->
  value i1 = value i2 ->
  name i1 <> "" ->
  name i2 <> "" ->
  name i1 <> name i2 ->
  (exists e, get_peripheral_interrupts dev = Raise e
             /\ main dev fs = (Raise e, fs))
  /\ (Forall (fun i => (-32 <= value i < 32)%Z) (entries dev) ->
      get_peripheral_interrupts dev = Raise AssertionError
      /\ main dev fs = (Raise AssertionError, fs))
  /\ (get_peripheral_interrupts dev = Raise IndexError ->
      Exists (fun i => (value i < -32 \/ 32 <= value i)%Z) (entries dev)).
Proof.
  intros Hp1 Hp2 _ Hi1 Hi2 Hv Hn1 Hn2 Hne.
  apply list_elem_of_lookup_2 in Hp1, Hp2.
  pose proof (elem_of_entries _ _ _ Hp1 Hi1) as He1.
  pose proof (elem_of_entries _ _ _ Hp2 Hi2) as He2.
  assert (exists e, get_peripheral_interrupts dev = Raise e) as [e He].
  { destruct (get_peripheral_interrupts dev) as [table|e] eqn:Hrun;
      [|by eexists].
    rewrite get_peripheral_interrupts_entries in Hrun.
    destruct (for_each_claim_named _ _ _ _ Hrun He1 Hn1) as (k1 & Hk1 & Ht1).
    destruct (for_each_claim_named _ _ _ _ Hrun He2 Hn2) as (k2 & Hk2 & Ht2).
    rewrite Hv, Hk2 in Hk1. injection Hk1 as <-. congruence. }
  assert (Forall (fun i => (-32 <= value i < 32)%Z) (entries dev) ->
          e = AssertionError) as Hkind.
  { intros Hr. destruct e; [|reflexivity]. exfalso.
    rewrite get_peripheral_interrupts_entries in He.
    eapply for_each_claim_no_IndexError; [|exact He].
    by rewrite length_replicate. }
  split; [|split].
  - exists e. split; [exact He|]. by rewrite main_unfold, He.
  - intros ->%Hkind. split; [exact He|]. by rewrite main_unfold, He.
  - intros Hidx.
    destruct (decide (Forall (fun i => (-32 <= value i < 32)%Z)
                             (entries dev))) as [Hr|Hr].
    + apply Hkind in Hr. congruence.
    + apply not_Forall_Exists in Hr; [|apply _].
      eapply Exists_impl; [exact Hr|]. simpl. intros i Hi. lia.
Qed.

Lemma conflict_fails_before_output_witness :
  get_peripheral_interrupts conflicting = Raise AssertionError
  /\ main conflicting ∅ = (Raise AssertionError, ∅).
Proof.
  destruct (conflict_fails_before_output conflicting ∅ 0 1
              {| interrupts := [irq 0 "POWER_CLOCK"] |}
              {| interrupts := [irq 1 "RADIO"; irq 0 "TIMER0"] |}
              (irq 0 "POWER_CLOCK") (irq 0 "TIMER0")) as (_ & Hassert & _).
  - reflexivity.
  - reflexivity.
  - lia.
  - simpl. apply list_elem_of_here.
  - simpl. apply list_elem_of_further, list_elem_of_here.
  - reflexivity.
  - discriminate.
  - discriminate.
  - discriminate.
  - apply Hassert. repeat constructor; simpl; lia.
Defined.

(** C2 as stated fails on the exception raised: here the first and the
    second peripheral declare interrupt 0 as POWER_CLOCK and as TIMER0, but
    the entry numbered 40 comes first in the second peripheral and the run
    ends with [IndexError], not with an assertion error. *)
Lemma conflict_behind_bad_number_raises_IndexError :
  peripherals index_error_before_conflict !! 0
  = Some {| interrupts := [irq 0 "POWER_CLOCK"] |}
  /\ peripherals index_error_before_conflict !! 1
     = Some {| interrupts := [irq 40 "GPIOTE"; irq 0 "TIMER0"] |}
  /\ get_peripheral_interrupts index_error_before_conflict = Raise IndexError
  /\ get_peripheral_interrupts index_error_before_conflict
     <> Raise AssertionError
  /\ main index_error_before_conflict ∅ = (Raise IndexError, ∅).
Proof.
  split; [reflexivity|]. split; [reflexivity|]. split; [reflexivity|].
  split; [discriminate | reflexivity].
Qed.

(** C9, amended. The builder indexes the 32-slot list with the entry's
    number as it is. An entry whose number is 32 or more, or below -32,
    raises [IndexError] as soon as the loop reaches it, so a description
    that contains one never yields a table. A number from -32 to -1 is not
    rejected: it addresses the slot 32 above it, counted from the end of the
    list ([-1] fills slot 31). A table is returned only if every number is
    in -32..31, and no [IndexError] is raised when every number is in
    -32..31, in particular when every number is in 0..31. *)
Theorem builder_index_unguarded :
  (forall dev pre intr post,
      entries dev = pre ++ intr :: post ->
      (value intr < -32 \/ 32 <= value intr)%Z ->
      (exists e, get_peripheral_interrupts dev = Raise e)
      /\ (forall table,
            for_each claim_slot pre (replicate 32 "") = Ok table ->
            get_peripheral_interrupts dev = Raise IndexError))
  /\ (forall table intr,
        length table = 32 ->
        (-32 <= value intr < 0)%Z ->
        claim_slot table intr
        = claim_slot table (irq (value intr + 32) (name intr)))
  /\ get_peripheral_interrupts (device_of [[irq (-1) "RTC1"]])
     = Ok (replicate 31 "" ++ ["RTC1"])
  /\ (forall dev table,
        get_peripheral_interrupts dev = Ok table ->
        Forall (fun i => (-32 <= value i < 32)%Z) (entries dev))
  /\ (forall dev,
        Forall (fun i => (-32 <= value i < 32)%Z) (entries dev) ->
        get_peripheral_interrupts dev <> Raise IndexError).
Proof.
  assert (forall dev pre intr post,
             entries dev = pre ++ intr :: post ->
             (value intr < -32 \/ 32 <= value intr)%Z ->
             (exists e, get_peripheral_interrupts dev = Raise e)
             /\ (forall table,
                   for_each claim_slot pre (replicate 32 "") = Ok table ->
                   get_peripheral_interrupts dev = Raise IndexError))
    as Hout; [|split; [exact Hout|split; [|split; [|split]]]].
  - intros dev pre intr post Hes Hv.
    assert (forall table, length table = 32 ->
                          claim_slot table intr = Raise IndexError) as Hstep.
    { intros table Hlen. rewrite claim_slot_unfold.
      destruct (py_index (length table) (value intr)) as [k|e] eqn:Hidx;
        [|reflexivity].
      apply py_index_Ok in Hidx. lia. }
    rewrite get_peripheral_interrupts_entries, Hes, for_each_app.
    destruct (for_each claim_slot pre (replicate 32 "")) as [t1|e] eqn:Hpre;
      simpl.
    + apply for_each_claim_length in Hpre. rewrite length_replicate in Hpre.
      rewrite (Hstep t1 Hpre). simpl. split; [by eexists|]. done.
    + split; [by eexists|]. discriminate.
  - intros table intr Hlen Hv. rewrite !claim_slot_unfold. simpl.
    replace (py_index (length table) (value intr + 32))
      with (py_index (length table) (value intr)); [reflexivity|].
    unfold py_index. rewrite Hlen.
    destruct (Z.ltb_spec (value intr) 0) as [_|?]; [|lia].
    destruct (Z.ltb_spec (value intr + 32) 0) as [?|_]; [lia|].
    reflexivity.
  - reflexivity.
  - intros dev table Hrun. apply Forall_forall. intros i Hi.
    destruct (decide (-32 <= value i < 32)%Z) as [Hin|Hnot]; [exact Hin|].
    apply list_elem_of_split in Hi as (pre & post & Hes).
    destruct (Hout dev pre i post Hes) as [[e He] _]; [lia | congruence].
  - intros dev Hr. rewrite get_peripheral_interrupts_entries.
    apply for_each_claim_no_IndexError. by rewrite length_replicate.
Qed.

Lemma builder_index_unguarded_witness :
  get_peripheral_interrupts (device_of [[irq 0 "POWER_CLOCK"]; [irq 32 "X"]])
  = Raise IndexError
  /\ claim_slot power_clock_radio_table (irq (-32) "TIMER0")
     = Raise AssertionError
  /\ Forall (fun i => (-32 <= value i < 32)%Z)
            (entries (device_of [[irq (-1) "RTC1"]]))
  /\ get_peripheral_interrupts (device_of [[irq (-32) "A"; irq 31 "B"]])
     <> Raise IndexError.
Proof.
  destruct builder_index_unguarded as (Hout & Hneg & Hlast & Honly & Hin).
  split; [|split].
  - destruct (Hout (device_of [[irq 0 "POWER_CLOCK"]; [irq 32 "X"]])
                [irq 0 "POWER_CLOCK"] (irq 32 "X") []) as [_ Hreach].
    + reflexivity.
    + right. simpl. lia.
    + eapply Hreach. reflexivity.
  - rewrite (Hneg power_clock_radio_table (irq (-32) "TIMER0")).
    + reflexivity.
    + reflexivity.
    + simpl. lia.
  - split; [exact (Honly _ _ Hlast)|].
    apply Hin. repeat constructor; simpl; lia.
Defined.

(** C9 as stated fails for negative numbers below -32: such an entry is not
    indexed from the end, it raises [IndexError]. *)
Lemma negative_number_below_minus_32_raises :
  (value (irq (-33) "RTC1") < 0)%Z
  /\ claim_slot (replicate 32 "") (irq (-33) "RTC1") = Raise IndexError
  /\ get_peripheral_interrupts (device_of [[irq (-33) "RTC1"]])
     = Raise IndexError.
Proof. split; [reflexivity | split; reflexivity]. Qed.



(** * The macro emitter *)

Lemma dump_macros_file_lines interrupts :
  dump_macros interrupts "" = unlines (file_lines interrupts).
Proof. by rewrite dump_macros_unlines. Qed.

Lemma length_vector_lines interrupts :
  length (vector_lines interrupts) = length interrupts.
Proof. rewrite vector_lines_map. apply length_fmap. Qed.

Lemma vector_lines_lookup interrupts k N :
  interrupts !! k = Some N ->
  vector_lines interrupts !! k
  = Some (if decide (N = "") then "0, /* Reserved */" else N +:+ "_Handler,").
Proof.
  intros Hk. rewrite vector_lines_map, list_lookup_fmap, Hk. simpl. f_equal.
  destruct (decide (N = "")) as [->|Hne]; [reflexivity|].
  by apply truthy_true in Hne as ->.
Qed.

(** Where the lines of the two macro bodies are in the file. *)
Lemma file_lines_vector_lookup interrupts k :
  k < length interrupts ->
  file_lines interrupts !! (2 + k)
  = continued 1 (length interrupts) k <$> vector_lines interrupts !! k.
Proof.
  intros Hk. unfold file_lines, macro_text. simpl.
  rewrite lookup_app_l by (rewrite length_imap, length_vector_lines; lia).
  by rewrite list_lookup_imap, length_vector_lines.
Qed.

Lemma file_lines_handler_lookup interrupts j :
  file_lines interrupts !! (3 + length interrupts + j)
  = continued 0 (length (handler_lines interrupts)) j
    <$> handler_lines interrupts !! j.
Proof.
  unfold file_lines, macro_text.
  change (3 + length interrupts + j) with (S (S (S (length interrupts + j)))).
  rewrite lookup_cons. rewrite <- app_comm_cons, lookup_cons.
  rewrite lookup_app_r by (rewrite length_imap, length_vector_lines; lia).
  rewrite length_imap, length_vector_lines.
  replace (S (length interrupts + j) - length interrupts) with (S j) by lia.
  rewrite lookup_cons. apply list_lookup_imap.
Qed.

Lemma continued_1 total k line :
  continued 1 total k line
  = tab +:+ line
    +:+ (if bool_decide (k + 1 < total) then " " +:+ backslash else "").
Proof. unfold continued. simpl. by rewrite str_app_nil_r. Qed.

Lemma continued_0 total k line :
  continued 0 total k line
  = line +:+ (if bool_decide (k + 1 < total) then " " +:+ backslash else "").
Proof. reflexivity. Qed.

Lemma list_ascii_of_string_app s1 s2 :
  String.list_ascii_of_string (s1 +:+ s2)
  = String.list_ascii_of_string s1 ++ String.list_ascii_of_string s2.
Proof.
  induction s1 as [|c s1 IH]; [reflexivity|].
  rewrite str_app_cons. simpl. by rewrite IH.
Qed.

Lemma comma_terminated_handler N : comma_terminated (N +:+ "_Handler,") = true.
Proof.
  unfold comma_terminated.
  by rewrite list_ascii_of_string_app, rev_app_distr.
Qed.

Lemma comma_terminated_entry N :
  comma_terminated
    (if decide (N = "") then "0, /* Reserved */" else N +:+ "_Handler,")
  = true.
Proof.
  destruct (decide (N = "")); [reflexivity | apply comma_terminated_handler].
Qed.

(** C3. For a valid description (every number in 0..31, same number same
    name) the run succeeds and the file holds, after the comment line and
    the [#define PERIPHERAL_INTERRUPT_VECTORS] line, a macro body of exactly
    32 lines, line [k] for slot [k]: the slot's entry, which is
    comma-terminated, indented by one tab and followed by a blank and the
    continuation backslash on all lines but the last. *)
Theorem vector_macro_has_32_entries (dev : Device) (fs : gmap string string) :
  valid dev ->
  exists table body,
    get_peripheral_interrupts dev = Ok table
    /\ main dev fs = (Ok tt, <[output_path := unlines (file_lines table)]> fs)
    /\ file_lines table
       = "/* Automatically generated by nRF51_codegen.py */"
         :: ("#define PERIPHERAL_INTERRUPT_VECTORS " +:+ backslash)
         :: body
         ++ macro_text "PERIPHERAL_INTERRUPT_HANDLERS" 0 (handler_lines table)
    /\ length body = 32
    /\ forall k, k < 32 ->
         exists N entry,
           table !! k = Some N
           /\ vector_lines table !! k = Some entry
           /\ entry = (if decide (N = "") then "0, /* Reserved */"
                       else N +:+ "_Handler,")
           /\ comma_terminated entry = true
           /\ body !! k
              = Some (tab +:+ entry
                      +:+ (if bool_decide (k < 31) then " " +:+ backslash
                           else "")).
Proof.
  intros [table Hrun]%valid_builds.
  pose proof (builds_length _ _ Hrun) as Hlen.
  exists table, (imap (continued 1 32) (vector_lines table)).
  split; [exact Hrun|]. split.
  { by rewrite main_unfold, Hrun, dump_macros_file_lines. }
  split.
  { unfold file_lines, macro_text. by rewrite length_vector_lines, Hlen. }
  split.
  { by rewrite length_imap, length_vector_lines. }
  intros k Hk.
  destruct (lookup_lt_is_Some_2 table k) as [N HN]; [lia|].
  eexists N, _. split; [exact HN|].
  split; [by apply vector_lines_lookup|]. split; [reflexivity|].
  split; [apply comma_terminated_entry|].
  rewrite list_lookup_imap, (vector_lines_lookup _ _ _ HN). simpl.
  rewrite continued_1.
  by rewrite (bool_decide_ext (k + 1 < 32) (k < 31)) by lia.
Qed.

Lemma power_clock_radio_valid : valid power_clock_radio.
Proof.
  split.
  - repeat constructor; simpl; lia.
  - repeat constructor; simpl; intros [=]; reflexivity.
Defined.

Lemma vector_macro_has_32_entries_witness :
  exists table body,
    get_peripheral_interrupts power_clock_radio = Ok table
    /\ main power_clock_radio ∅
       = (Ok tt, <[output_path := unlines (file_lines table)]> ∅)
    /\ file_lines table
       = "/* Automatically generated by nRF51_codegen.py */"
         :: ("#define PERIPHERAL_INTERRUPT_VECTORS " +:+ backslash)
         :: body
         ++ macro_text "PERIPHERAL_INTERRUPT_HANDLERS" 0 (handler_lines table)
    /\ length body = 32
    /\ forall k, k < 32 ->
         exists N entry,
           table !! k = Some N
           /\ vector_lines table !! k = Some entry
           /\ entry = (if decide (N = "") then "0, /* Reserved */"
                       else N +:+ "_Handler,")
           /\ comma_terminated entry = true
           /\ body !! k
              = Some (tab +:+ entry
                      +:+ (if bool_decide (k < 31) then " " +:+ backslash
                           else "")).
Proof.
  apply (vector_macro_has_32_entries power_clock_radio ∅).
  exact power_clock_radio_valid.
Defined.

(** C4. In the body of the vector-table macro, the entry of a slot with
    no handler name is exactly [0, /* Reserved */] and the entry of a slot
    holding the name [N] is exactly [N_Handler,]. What [dump_macros] writes
    is the text of the lines [file_lines], and the line written for slot [k]
    is that entry behind the one-tab indent of the macro body, followed by a
    blank and the continuation backslash except on the last line. *)
Theorem vector_line_text (interrupts : list string) (outfile : string)
    (k : nat) (N : string) :
  interrupts !! k = Some N ->
  (N = "" -> vector_lines interrupts !! k = Some "0, /* Reserved */")
  /\ (N <> "" -> vector_lines interrupts !! k = Some (N +:+ "_Handler,"))
  /\ dump_macros interrupts outfile
     = outfile +:+ unlines (file_lines interrupts)
  /\ exists entry,
       vector_lines interrupts !! k = Some entry
       /\ file_lines interrupts !! (2 + k)
          = Some (tab +:+ entry
                  +:+ (if bool_decide (k + 1 < length interrupts)
                       then " " +:+ backslash else "")).
Proof.
  intros Hk. pose proof (vector_lines_lookup _ _ _ Hk) as Hentry.
  split; [|split; [|split]].
  - intros ->. exact Hentry.
  - intros Hne. by rewrite decide_False in Hentry.
  - apply dump_macros_unlines.
  - eexists. split; [exact Hentry|].
    rewrite file_lines_vector_lookup by (by eapply lookup_lt_Some).
    by rewrite Hentry, <- continued_1.
Qed.

Lemma vector_line_text_witness :
  vector_lines power_clock_radio_table !! 1 = Some "RADIO_Handler,"
  /\ vector_lines power_clock_radio_table !! 31 = Some "0, /* Reserved */"
  /\ dump_macros power_clock_radio_table ""
     = "" +:+ unlines (file_lines power_clock_radio_table)
  /\ file_lines power_clock_radio_table !! 33
     = Some (tab +:+ "0, /* Reserved */").
Proof.
  destruct (vector_line_text power_clock_radio_table "" 1 "RADIO" eq_refl)
    as (_ & Hname & _).
  destruct (vector_line_text power_clock_radio_table "" 31 "" eq_refl)
    as (Hres & _ & Htext & entry & Hentry & Hline).
  split; [apply Hname; discriminate|].
  split; [apply Hres; reflexivity|].
  split; [exact Htext|].
  rewrite (Hres eq_refl) in Hentry. injection Hentry as <-. exact Hline.
Defined.

Lemma handler_lines_weak_alias interrupts :
  handler_lines interrupts
  = weak_alias <$> filter (fun N => N <> "") interrupts.
Proof. apply handler_lines_filter. Qed.

(** Position [j] of a filtered list comes from a position [k] of the list
    with [j] selected elements before it. *)
Lemma filter_lookup_Some {A : Type} (P : A -> Prop) `{!forall x, Decision (P x)}
    (l : list A) (j : nat) (x : A) :
  filter P l !! j = Some x ->
  exists k, l !! k = Some x /\ P x /\ j = length (filter P (take k l)).
Proof.
  revert j. induction l as [|a l IH]; intros j; [done|].
  rewrite filter_cons. destruct (decide (P a)) as [Ha|Ha].
  - destruct j as [|j]; simpl.
    + intros [= <-]. by exists 0.
    + intros (k & Hk & Hx & ->)%IH. exists (S k). simpl.
      by rewrite filter_cons_True.
  - intros (k & Hk & Hx & ->)%IH. exists (S k). simpl.
    by rewrite filter_cons_False.
Qed.

Lemma filter_lookup_middle {A : Type} (P : A -> Prop)
    `{!forall x, Decision (P x)} (l : list A) (k : nat) (x : A) :
  l !! k = Some x -> P x ->
  filter P l !! length (filter P (take k l)) = Some x.
Proof.
  intros Hk Hx.
  assert (filter P l
          = filter P (take k l) ++ x :: filter P (drop (S k) l)) as ->.
  { rewrite <- (take_drop_middle l k x Hk) at 1.
    by rewrite filter_app, filter_cons_True. }
  by rewrite lookup_app_r, Nat.sub_diag.
Qed.

Lemma filter_none {A : Type} (P : A -> Prop) `{!forall x, Decision (P x)}
    (l : list A) :
  Forall (fun x => ~ P x) l -> filter P l = [].
Proof.
  induction 1 as [|x l Hx _ IH]; [reflexivity|].
  by rewrite filter_cons_False.
Qed.

(** C5. The weak handler declarations are in one-to-one, order-preserving
    correspondence with the non-empty slots: there are as many lines as
    non-empty slots, the line of a non-empty slot [k] is the declaration of
    its name and stands at the position given by the number of non-empty
    slots before [k], and every line is the line of such a slot (empty slots
    have none). What [dump_macros] writes is the text of the lines
    [file_lines], and these declarations, continued, are all the lines of
    that text behind the [#define PERIPHERAL_INTERRUPT_HANDLERS] line, which
    is line [2 + length interrupts]. *)
Theorem weak_alias_once_per_filled_slot (interrupts : list string) :
  length (handler_lines interrupts)
  = length (filter (fun N => N <> "") interrupts)
  /\ (forall k N,
        interrupts !! k = Some N -> N <> "" ->
        handler_lines interrupts
          !! length (filter (fun N => N <> "") (take k interrupts))
        = Some (weak_alias N))
  /\ (forall j line,
        handler_lines interrupts !! j = Some line ->
        exists k N,
          interrupts !! k = Some N /\ N <> ""
          /\ j = length (filter (fun N => N <> "") (take k interrupts))
          /\ line = weak_alias N)
  /\ (forall outfile,
        dump_macros interrupts outfile
        = outfile +:+ unlines (file_lines interrupts))
  /\ file_lines interrupts !! (2 + length interrupts)
     = Some ("#define PERIPHERAL_INTERRUPT_HANDLERS " +:+ backslash)
  /\ drop (3 + length interrupts) (file_lines interrupts)
     = imap (continued 0 (length (handler_lines interrupts)))
            (handler_lines interrupts).
Proof.
  split; [|split; [|split; [|split; [|split]]]].
  - by rewrite handler_lines_weak_alias, length_fmap.
  - intros k N Hk HN.
    rewrite handler_lines_weak_alias, list_lookup_fmap.
    by rewrite (filter_lookup_middle _ _ _ _ Hk HN).
  - intros j line. rewrite handler_lines_weak_alias, list_lookup_fmap.
    destruct (filter _ interrupts !! j) as [N|] eqn:Hj; [|done].
    intros [= <-]. apply filter_lookup_Some in Hj as (k & Hk & HN & ->).
    by exists k, N.
  - intros outfile. apply dump_macros_unlines.
  - unfold file_lines, macro_text.
    change (2 + length interrupts) with (S (S (length interrupts))).
    rewrite lookup_cons, <- app_comm_cons, lookup_cons.
    rewrite lookup_app_r by (by rewrite length_imap, length_vector_lines).
    by rewrite length_imap, length_vector_lines, Nat.sub_diag.
  - apply list_eq. intros j.
    rewrite lookup_drop, file_lines_handler_lookup.
    by rewrite list_lookup_imap.
Qed.

Lemma weak_alias_once_per_filled_slot_witness :
  length (handler_lines power_clock_radio_table) = 2
  /\ handler_lines power_clock_radio_table !! 1 = Some (weak_alias "RADIO")
  /\ (exists k N,
        power_clock_radio_table !! k = Some N /\ N <> ""
        /\ 0 = length (filter (fun N => N <> "")
                              (take k power_clock_radio_table))
        /\ weak_alias "POWER_CLOCK" = weak_alias N)
  /\ dump_macros power_clock_radio_table ""
     = "" +:+ unlines (file_lines power_clock_radio_table).
Proof.
  destruct (weak_alias_once_per_filled_slot power_clock_radio_table)
    as (Hcount & Hslot & Hline & Htext & _).
  split; [exact Hcount|]. split; [|split].
  - apply (Hslot 1 "RADIO"); [reflexivity | discriminate].
  - apply (Hline 0 (weak_alias "POWER_CLOCK")). reflexivity.
  - apply Htext.
Defined.

(** C6, amended. The weak handler declaration emitted for a non-empty slot
    with handler name [N] is exactly the text
    [void N_Handler(void) __attribute__ ((weak, alias("Dummy_Handler")));]
    with one blank between [__attribute__] and the parentheses, and every
    declaration line is the line of such a slot. What [dump_macros] writes
    is the text of the lines [file_lines], where the declaration of the slot
    is not indented and is followed by a blank and the continuation backslash
    except on the last line. *)
Theorem weak_alias_line_text (interrupts : list string) (outfile : string)
    (k : nat) (N : string) :
  interrupts !! k = Some N ->
  N <> "" ->
  handler_lines interrupts
    !! length (filter (fun N => N <> "") (take k interrupts))
  = Some ("void " +:+ N
          +:+ "_Handler(void) __attribute__ ((weak, alias("
          +:+ dquote +:+ "Dummy_Handler" +:+ dquote +:+ ")));")
  /\ dump_macros interrupts outfile
     = outfile +:+ unlines (file_lines interrupts)
  /\ file_lines interrupts
       !! (3 + length interrupts
           + length (filter (fun N => N <> "") (take k interrupts)))
     = Some (("void " +:+ N
              +:+ "_Handler(void) __attribute__ ((weak, alias("
              +:+ dquote +:+ "Dummy_Handler" +:+ dquote +:+ ")));")
             +:+ (if bool_decide
                       (length (filter (fun N => N <> "")
                                       (take k interrupts)) + 1
                        < length (handler_lines interrupts))
                  then " " +:+ backslash else ""))
  /\ (forall j line,
        handler_lines interrupts !! j = Some line ->
        exists k' N',
          interrupts !! k' = Some N' /\ N' <> ""
          /\ j = length (filter (fun N => N <> "") (take k' interrupts))
          /\ line = "void " +:+ N'
                    +:+ "_Handler(void) __attribute__ ((weak, alias("
                    +:+ dquote +:+ "Dummy_Handler" +:+ dquote +:+ ")));").
Proof.
  intros Hk HN.
  assert (handler_lines interrupts
            !! length (filter (fun N => N <> "") (take k interrupts))
          = Some ("void " +:+ N
                  +:+ "_Handler(void) __attribute__ ((weak, alias("
                  +:+ dquote +:+ "Dummy_Handler" +:+ dquote +:+ ")));"))
    as Hline.
  { rewrite handler_lines_filter, list_lookup_fmap.
    by rewrite (filter_lookup_middle _ _ _ _ Hk HN). }
  split; [exact Hline|]. split; [apply dump_macros_unlines|]. split.
  - by rewrite file_lines_handler_lookup, Hline.
  - intros j line. rewrite handler_lines_filter, list_lookup_fmap.
    destruct (filter _ interrupts !! j) as [N'|] eqn:Hj; [|done].
    intros [= <-]. apply filter_lookup_Some in Hj as (k' & Hk' & HN' & ->).
    by exists k', N'.
Qed.

Lemma weak_alias_line_text_witness :
  handler_lines power_clock_radio_table !! 1
  = Some ("void " +:+ "RADIO"
          +:+ "_Handler(void) __attribute__ ((weak, alias("
          +:+ dquote +:+ "Dummy_Handler" +:+ dquote +:+ ")));")
  /\ dump_macros power_clock_radio_table ""
     = "" +:+ unlines (file_lines power_clock_radio_table)
  /\ file_lines power_clock_radio_table !! 36
     = Some (("void " +:+ "RADIO"
              +:+ "_Handler(void) __attribute__ ((weak, alias("
              +:+ dquote +:+ "Dummy_Handler" +:+ dquote +:+ ")));")
             +:+ "").
Proof.
  destruct (weak_alias_line_text power_clock_radio_table "" 1 "RADIO")
    as (Hline & Htext & Hfile & _); [reflexivity | discriminate |].
  split; [exact Hline|]. split; [exact Htext | exact Hfile].
Defined.

(** C6 as stated fails: the declaration written for RADIO has a blank
    between [__attribute__] and the parentheses, so it is not the text
    without one. *)
Lemma weak_alias_line_has_blank :
  get_peripheral_interrupts power_clock_radio = Ok power_clock_radio_table
  /\ handler_lines power_clock_radio_table !! 1
     = Some ("void RADIO_Handler(void) __attribute__ ((weak, alias("
             +:+ dquote +:+ "Dummy_Handler" +:+ dquote +:+ ")));")
  /\ handler_lines power_clock_radio_table !! 1
     <> Some ("void RADIO_Handler(void) __attribute__((weak, alias("
              +:+ dquote +:+ "Dummy_Handler" +:+ dquote +:+ ")));").
Proof. split; [reflexivity | split; [reflexivity | discriminate]]. Qed.

(** C7. With POWER_CLOCK on interrupt 0, RADIO on interrupt 1 and nothing
    else declared, the table is these two names and 30 empty slots; the body
    of the vector table is [POWER_CLOCK_Handler,], [RADIO_Handler,] and 30
    times [0, /* Reserved */]; exactly two weak handler declarations are
    made, for [POWER_CLOCK_Handler] and [RADIO_Handler]; and the file is the
    comment line, the vector macro with these 32 lines and the handler macro
    with these two. *)
Theorem power_clock_radio_scenario :
  get_peripheral_interrupts power_clock_radio = Ok power_clock_radio_table
  /\ get_peripheral_interrupts
       (device_of [[irq 0 "POWER_CLOCK"; irq 1 "RADIO"]])
     = Ok power_clock_radio_table
  /\ vector_lines power_clock_radio_table
     = ["POWER_CLOCK_Handler,"; "RADIO_Handler,"]
       ++ replicate 30 "0, /* Reserved */"
  /\ handler_lines power_clock_radio_table
     = ["void POWER_CLOCK_Handler(void) __attribute__ ((weak, alias("
        +:+ dquote +:+ "Dummy_Handler" +:+ dquote +:+ ")));";
        "void RADIO_Handler(void) __attribute__ ((weak, alias("
        +:+ dquote +:+ "Dummy_Handler" +:+ dquote +:+ ")));"]
  /\ dump_macros power_clock_radio_table ""
     = unlines
         (["/* Automatically generated by nRF51_codegen.py */";
           "#define PERIPHERAL_INTERRUPT_VECTORS " +:+ backslash;
           tab +:+ "POWER_CLOCK_Handler, " +:+ backslash;
           tab +:+ "RADIO_Handler, " +:+ backslash]
          ++ replicate 29 (tab +:+ "0, /* Reserved */ " +:+ backslash)
          ++ [tab +:+ "0, /* Reserved */";
              "#define PERIPHERAL_INTERRUPT_HANDLERS " +:+ backslash;
              "void POWER_CLOCK_Handler(void) __attribute__ ((weak, alias("
              +:+ dquote +:+ "Dummy_Handler" +:+ dquote +:+ "))); "
              +:+ backslash;
              "void RADIO_Handler(void) __attribute__ ((weak, alias("
              +:+ dquote +:+ "Dummy_Handler" +:+ dquote +:+ ")));"]).
Proof. repeat split; vm_compute; reflexivity. Qed.

Lemma is_define_vector_body total lines :
  filter (fun l => is_define l = true) (imap (continued 1 total) lines) = [].
Proof.
  apply filter_none, Forall_forall. intros l Hl.
  apply elem_of_lookup_imap in Hl as (k & line & -> & _). discriminate.
Qed.

Lemma is_define_handler_body total interrupts :
  filter (fun l => is_define l = true)
         (imap (continued 0 total) (handler_lines interrupts)) = [].
Proof.
  apply filter_none, Forall_forall. intros l Hl.
  apply elem_of_lookup_imap in Hl as (j & line & -> & Hj).
  rewrite handler_lines_weak_alias, list_lookup_fmap in Hj.
  destruct (filter _ interrupts !! j) as [N|]; [|done].
  injection Hj as <-. discriminate.
Qed.

(** C8. A run that succeeds leaves every other file as it was and makes the
    output file exactly this text: the generated-file comment as first line,
    the [#define PERIPHERAL_INTERRUPT_VECTORS] line with its 32 body lines,
    then the [#define PERIPHERAL_INTERRUPT_HANDLERS] line with its body
    lines, and nothing after them. These are its only two lines that open a
    macro definition. *)
Theorem output_is_comment_and_two_macros (dev : Device)
    (fs fs' : gmap string string) :
  main dev fs = (Ok tt, fs') ->
  exists table,
    get_peripheral_interrupts dev = Ok table
    /\ fs' = <[output_path := unlines (file_lines table)]> fs
    /\ file_lines table
       = "/* Automatically generated by nRF51_codegen.py */"
         :: (("#define PERIPHERAL_INTERRUPT_VECTORS " +:+ backslash)
             :: imap (continued 1 32) (vector_lines table))
         ++ (("#define PERIPHERAL_INTERRUPT_HANDLERS " +:+ backslash)
             :: imap (continued 0 (length (handler_lines table)))
                     (handler_lines table))
    /\ length (vector_lines table) = 32
    /\ length (filter (fun l => is_define l = true) (file_lines table)) = 2.
Proof.
  rewrite main_unfold.
  destruct (get_peripheral_interrupts dev) as [table|e] eqn:Hrun;
    [|discriminate].
  intros [= <-]. exists table.
  pose proof (builds_length _ _ Hrun) as Hlen.
  split; [reflexivity|]. split; [by rewrite dump_macros_file_lines|].
  assert (file_lines table
          = "/* Automatically generated by nRF51_codegen.py */"
            :: (("#define PERIPHERAL_INTERRUPT_VECTORS " +:+ backslash)
                :: imap (continued 1 32) (vector_lines table))
            ++ (("#define PERIPHERAL_INTERRUPT_HANDLERS " +:+ backslash)
                :: imap (continued 0 (length (handler_lines table)))
                        (handler_lines table))) as Hfile.
  { unfold file_lines, macro_text. by rewrite length_vector_lines, Hlen. }
  split; [exact Hfile|]. split; [by rewrite length_vector_lines|].
  rewrite Hfile.
  rewrite filter_cons_False by discriminate.
  rewrite filter_app, filter_cons_True by reflexivity.
  rewrite is_define_vector_body.
  rewrite filter_cons_True by reflexivity.
  by rewrite is_define_handler_body.
Qed.

Lemma output_is_comment_and_two_macros_witness :
  exists table,
    get_peripheral_interrupts power_clock_radio = Ok table
    /\ (main power_clock_radio ∅).2
       = <[output_path := unlines (file_lines table)]> ∅
    /\ file_lines table
       = "/* Automatically generated by nRF51_codegen.py */"
         :: (("#define PERIPHERAL_INTERRUPT_VECTORS " +:+ backslash)
             :: imap (continued 1 32) (vector_lines table))
         ++ (("#define PERIPHERAL_INTERRUPT_HANDLERS " +:+ backslash)
             :: imap (continued 0 (length (handler_lines table)))
                     (handler_lines table))
    /\ length (vector_lines table) = 32
    /\ length (filter (fun l => is_define l = true) (file_lines table)) = 2.
Proof.
  apply (output_is_comment_and_two_macros power_clock_radio ∅).
  reflexivity.
Defined.

(** * Further properties of the builder *)

(** The table after a prefix of the entries, slot by slot. *)
Lemma table_after_prefix pre table k :
  for_each claim_slot pre (replicate 32 "") = Ok table ->
  k < 32 ->
  table !! k = Some (first_name 32 k pre).
Proof.
  intros Hrun Hk.
  rewrite (for_each_claim_lookup _ _ _ k "" Hrun)
    by (by apply lookup_replicate).
  by rewrite length_replicate.
Qed.

Lemma first_name_elem len k es :
  first_name len k es <> "" ->
  exists e, e ∈ es /\ py_index len (value e) = Ok k
            /\ name e = first_name len k es.
Proof.
  induction es as [|i es IH]; simpl; [done|].
  destruct (py_index len (value i)) as [k'|x] eqn:Hidx.
  - destruct (decide (k' = k)) as [->|Hkk].
    + rewrite bool_decide_eq_true_2 by reflexivity. simpl.
      destruct (truthy (name i)) eqn:Ht.
      * intros _. exists i. split; [apply list_elem_of_here | done].
      * intros (e & He & H)%IH. exists e. split; [|exact H].
        by apply list_elem_of_further.
    + rewrite bool_decide_eq_false_2 by exact Hkk. simpl.
      intros (e & He & H)%IH. exists e. split; [|exact H].
      by apply list_elem_of_further.
  - intros (e & He & H)%IH. exists e. split; [|exact H].
    by apply list_elem_of_further.
Qed.

(** X1. The builder returns a table exactly when every entry's number
    indexes the 32 slots and, when the loop gets to the entry, its slot is
    either still unfilled by the entries before it or already holds the
    entry's own name. *)
Theorem builder_succeeds_iff (dev : Device) :
  (exists table, get_peripheral_interrupts dev = Ok table)
  <-> (forall pre e post,
          entries dev = pre ++ e :: post ->
          exists k, py_index 32 (value e) = Ok k
                    /\ (first_name 32 k pre = ""
                        \/ first_name 32 k pre = name e)).
Proof.
  rewrite get_peripheral_interrupts_entries. generalize (entries dev) as es.
  intros es. split.
  - intros [table Hrun] pre e post ->.
    rewrite for_each_app in Hrun.
    apply bind_Ok in Hrun as (t1 & Hpre & Hrun). simpl in Hrun.
    apply bind_Ok in Hrun as (t2 & He & _).
    pose proof (for_each_claim_length _ _ _ Hpre) as Hlen.
    rewrite length_replicate in Hlen.
    apply claim_slot_Ok in He as (k & cur & Hidx & Hcur & Hcase).
    rewrite Hlen in Hidx. exists k. split; [exact Hidx|].
    apply py_index_Ok in Hidx as [Hk _].
    rewrite (table_after_prefix _ _ _ Hpre Hk) in Hcur. injection Hcur as <-.
    destruct Hcase as [(_ & Heq & _) | (Heq & _)]; [by right | by left].
  - induction es as [|e es IH] using rev_ind; intros Hcond.
    { by eexists. }
    destruct IH as [t Ht].
    { intros pre x post ->. apply (Hcond pre x (post ++ [e])).
      by rewrite <- app_assoc. }
    destruct (Hcond es e [] eq_refl) as (k & Hidx & Hslot).
    pose proof (for_each_claim_length _ _ _ Ht) as Hlen.
    rewrite length_replicate in Hlen.
    rewrite for_each_app, Ht. simpl.
    rewrite claim_slot_unfold, Hlen, Hidx.
    apply py_index_Ok in Hidx as [Hk _].
    rewrite (table_after_prefix _ _ _ Ht Hk).
    destruct Hslot as [-> | ->]; simpl; [by eexists|].
    destruct (truthy (name e)); [|by eexists].
    rewrite String.eqb_refl. by eexists.
Qed.

Lemma builder_succeeds_iff_witness :
  exists k, py_index 32 (value (irq 0 "POWER_CLOCK")) = Ok k
            /\ (first_name 32 k [irq 0 "POWER_CLOCK"] = ""
                \/ first_name 32 k [irq 0 "POWER_CLOCK"]
                   = name (irq 0 "POWER_CLOCK")).
Proof.
  apply (proj1 (builder_succeeds_iff power_clock_radio)
               (ex_intro _ power_clock_radio_table eq_refl)
               [irq 0 "POWER_CLOCK"] (irq 0 "POWER_CLOCK") [irq 1 "RADIO"]).
  reflexivity.
Defined.

(** X2. Table and description agree after a successful run: every entry
    with a non-empty name finds that name in the slot its number addresses,
    and every name in the table was declared by some entry for that slot;
    the builder invents no name and loses none. *)
Theorem table_holds_declared_names (dev : Device) (table : list string) :
  get_peripheral_interrupts dev = Ok table ->
  (forall e, e ∈ entries dev -> name e <> "" ->
             exists k, py_index 32 (value e) = Ok k
                       /\ table !! k = Some (name e))
  /\ (forall k N, table !! k = Some N -> N <> "" ->
                  exists e, e ∈ entries dev
                            /\ py_index 32 (value e) = Ok k /\ name e = N).
Proof.
  rewrite get_peripheral_interrupts_entries. intros Hrun. split.
  - intros e He Hn.
    destruct (for_each_claim_named _ _ _ _ Hrun He Hn) as (k & Hidx & Hk).
    rewrite length_replicate in Hidx. by exists k.
  - intros k N Hk HN.
    assert (k < 32) as Hlt.
    { apply lookup_lt_Some in Hk.
      by rewrite (for_each_claim_length _ _ _ Hrun), length_replicate in Hk. }
    rewrite (table_after_prefix _ _ _ Hrun Hlt) in Hk. injection Hk as <-.
    destruct (first_name_elem _ _ _ HN) as (e & He & Hidx & Hname).
    by exists e.
Qed.

Lemma table_holds_declared_names_witness :
  (exists k, py_index 32 (value (irq 1 "RADIO")) = Ok k
             /\ power_clock_radio_table !! k = Some (name (irq 1 "RADIO")))
  /\ (exists e, e ∈ entries power_clock_radio
                /\ py_index 32 (value e) = Ok 0 /\ name e = "POWER_CLOCK").
Proof.
  destruct (table_holds_declared_names power_clock_radio
              power_clock_radio_table eq_refl) as [Hin Hout].
  split.
  - apply Hin; [|discriminate].
    simpl. do 2 apply list_elem_of_further. apply list_elem_of_here.
  - apply Hout; [reflexivity | discriminate].
Defined.

Lemma py_index_in_range v :
  (0 <= v < 32)%Z -> py_index 32 v = Ok (Z.to_nat v).
Proof. intros Hv. apply py_index_Ok. lia. Qed.

Lemma first_name_of_consistent es e :
  Forall (fun i => (0 <= value i < 32)%Z) es ->
  (forall i, i ∈ es -> value i = value e -> name i = name e) ->
  e ∈ es -> name e <> "" ->
  first_name 32 (Z.to_nat (value e)) es = name e.
Proof.
  intros Hr Hc He Hn. induction es as [|i es IH]; [by inversion He|].
  apply Forall_cons in Hr as [Hi Hr]. simpl.
  rewrite (py_index_in_range _ Hi).
  destruct (decide (Z.to_nat (value i) = Z.to_nat (value e))) as [Heq|Hne].
  - rewrite bool_decide_eq_true_2 by exact Heq. simpl.
    assert (name i = name e) as ->.
    { apply Hc; [apply list_elem_of_here|].
      apply elem_of_cons in He as [->|He]; [reflexivity|].
      rewrite Forall_forall in Hr. specialize (Hr e He). simpl in Hr. lia. }
    by apply truthy_true in Hn as ->.
  - rewrite bool_decide_eq_false_2 by exact Hne. simpl.
    apply IH; [exact Hr | |].
    + intros i' Hi'. apply Hc. by apply list_elem_of_further.
    + apply elem_of_cons in He as [->|He]; [done | exact He].
Qed.

Lemma consistent_names_elem es i1 i2 :
  consistent_names es -> i1 ∈ es -> i2 ∈ es ->
  value i1 = value i2 -> name i1 = name i2.
Proof.
  unfold consistent_names. rewrite Forall_forall. intros Hc H1 H2.
  specialize (Hc i1 H1). rewrite Forall_forall in Hc. by apply Hc.
Qed.

Lemma valid_first_name es k :
  numbers_in_range es -> consistent_names es ->
  first_name 32 k es <> "" ->
  forall es', es' ≡ₚ es -> first_name 32 k es' = first_name 32 k es.
Proof.
  intros Hr Hc HN es' Hperm.
  destruct (first_name_elem _ _ _ HN) as (e & He & Hidx & Hname).
  assert (k = Z.to_nat (value e)) as ->.
  { unfold numbers_in_range in Hr. rewrite Forall_forall in Hr.
    pose proof (py_index_in_range _ (Hr e He)) as Hidx'. congruence. }
  rewrite <- Hname. apply first_name_of_consistent.
  - unfold numbers_in_range in Hr. by rewrite Hperm.
  - intros i Hi. rewrite Hperm in Hi.
    exact (consistent_names_elem es i e Hc Hi He).
  - by rewrite Hperm.
  - by rewrite Hname.
Qed.

Lemma valid_permutation es es' :
  numbers_in_range es -> consistent_names es -> es' ≡ₚ es ->
  numbers_in_range es' /\ consistent_names es'.
Proof.
  intros Hr Hc Hperm. split.
  - unfold numbers_in_range in *. by rewrite Hperm.
  - unfold consistent_names. apply Forall_forall. intros i1 H1.
    apply Forall_forall. intros i2 H2. rewrite Hperm in H1, H2.
    exact (consistent_names_elem es i1 i2 Hc H1 H2).
Qed.

(** X3. For a valid description the table does not depend on the order in
    which peripherals and entries are listed: a device with the same entries
    in another order, grouped into peripherals in any way, gives the same
    table. *)
Theorem valid_table_order_independent (dev dev' : Device) :
  valid dev ->
  entries dev' ≡ₚ entries dev ->
  get_peripheral_interrupts dev' = get_peripheral_interrupts dev.
Proof.
  intros [Hr Hc] Hperm.
  destruct (valid_permutation _ _ Hr Hc Hperm) as [Hr' Hc'].
  destruct (valid_builds dev (conj Hr Hc)) as [t Ht].
  destruct (valid_builds dev' (conj Hr' Hc')) as [t' Ht'].
  rewrite Ht, Ht'. f_equal. apply list_eq. intros k.
  pose proof (builds_length _ _ Ht) as Hlen.
  pose proof (builds_length _ _ Ht') as Hlen'.
  destruct (decide (k < 32)) as [Hk|Hk].
  2:{ rewrite !lookup_ge_None_2 by lia. reflexivity. }
  rewrite get_peripheral_interrupts_entries in Ht, Ht'.
  rewrite (table_after_prefix _ _ _ Ht Hk), (table_after_prefix _ _ _ Ht' Hk).
  f_equal.
  destruct (decide (first_name 32 k (entries dev) = "")) as [He|He].
  - destruct (decide (first_name 32 k (entries dev') = "")) as [He'|He'].
    + by rewrite He, He'.
    + symmetry. by apply valid_first_name.
  - by apply valid_first_name.
Qed.

Lemma valid_table_order_independent_witness :
  get_peripheral_interrupts
    (device_of [[irq 1 "RADIO"; irq 0 "POWER_CLOCK"]; [];
                [irq 0 "POWER_CLOCK"]])
  = get_peripheral_interrupts power_clock_radio.
Proof.
  apply valid_table_order_independent.
  - exact power_clock_radio_valid.
  - simpl. change (entries power_clock_radio)
      with [irq 0 "POWER_CLOCK"; irq 0 "POWER_CLOCK"; irq 1 "RADIO"].
    change (entries _)
      with [irq 1 "RADIO"; irq 0 "POWER_CLOCK"; irq 0 "POWER_CLOCK"].
    apply (Permutation_app_comm [irq 1 "RADIO"]
             [irq 0 "POWER_CLOCK"; irq 0 "POWER_CLOCK"]).
Defined.

(** * Further properties of the emitter and of the program *)

(** X4. [main] touches the output file only: every other path keeps its
    content; on success the new content does not depend on what the file
    held before (it is replaced, never extended); on any exception the file
    system is left as it was; and running the program a second time changes
    nothing more. *)
Theorem main_replaces_output_only (dev : Device) (fs : gmap string string) :
  (forall p, p <> output_path -> (main dev fs).2 !! p = fs !! p)
  /\ (forall table old,
        get_peripheral_interrupts dev = Ok table ->
        main dev (<[output_path := old]> fs)
        = (Ok tt, <[output_path := dump_macros table ""]> fs))
  /\ (forall e,
        get_peripheral_interrupts dev = Raise e -> main dev fs = (Raise e, fs))
  /\ main dev (main dev fs).2 = main dev fs.
Proof.
  split; [|split; [|split]].
  - intros p Hp. rewrite main_unfold.
    destruct (get_peripheral_interrupts dev); simpl; [|reflexivity].
    by rewrite lookup_insert_ne.
  - intros table old Hrun. by rewrite main_unfold, Hrun, insert_insert_eq.
  - intros e Hrun. by rewrite main_unfold, Hrun.
  - rewrite !main_unfold.
    destruct (get_peripheral_interrupts dev); simpl; [|reflexivity].
    by rewrite insert_insert_eq.
Qed.

Lemma main_replaces_output_only_witness :
  main power_clock_radio (<[output_path := "stale text"]> ∅)
  = (Ok tt, <[output_path := dump_macros power_clock_radio_table ""]> ∅)
  /\ main conflicting (<[output_path := "stale text"]> ∅)
     = (Raise AssertionError, <[output_path := "stale text"]> ∅)
  /\ (main power_clock_radio (<[ "Makefile" := "all:" ]> ∅)).2 !! "Makefile"
     = Some "all:".
Proof.
  destruct (main_replaces_output_only power_clock_radio ∅)
    as (_ & Hnew & _ & _).
  destruct (main_replaces_output_only conflicting
              (<[output_path := "stale text"]> ∅)) as (_ & _ & Hfail & _).
  destruct (main_replaces_output_only power_clock_radio
              (<[ "Makefile" := "all:" ]> ∅)) as (Hother & _).
  split; [|split].
  - exact (Hnew power_clock_radio_table "stale text" eq_refl).
  - exact (Hfail AssertionError eq_refl).
  - rewrite Hother by discriminate. reflexivity.
Defined.

(** X5. The emitter only appends: whatever the output buffer holds stays in
    front, and what is added does not depend on it. *)
Theorem dump_macros_appends (interrupts : list string) (outfile : string) :
  dump_macros interrupts outfile = outfile +:+ dump_macros interrupts ""
  /\ forall name lines indent,
       dump_as_c_macro name lines outfile indent
       = outfile +:+ dump_as_c_macro name lines "" indent.
Proof.
  split.
  - by rewrite !dump_macros_unlines.
  - intros name lines indent. by rewrite !dump_as_c_macro_unlines.
Qed.

(** X6. [dump_as_c_macro] in closed form, for any macro name, body and
    indent: it prints the [#define] line with its continuation backslash and
    then one line per body line, each behind [indent] tab characters and
    followed by a blank and a backslash, except the last one, which is left
    open; for an empty body it prints the [#define] line alone. *)
Theorem dump_as_c_macro_closed_form (name : string) (lines : list string)
    (outfile : string) (indent : nat) :
  exists body,
    dump_as_c_macro name lines outfile indent
    = outfile
      +:+ unlines (("#define " +:+ name +:+ " " +:+ backslash) :: body)
    /\ length body = length lines
    /\ (forall k line,
          lines !! k = Some line ->
          body !! k
          = Some (str_mul tab indent +:+ line
                  +:+ (if bool_decide (k + 1 < length lines)
                       then " " +:+ backslash else "")))
    /\ (lines = [] -> body = []).
Proof.
  exists (imap (continued indent (length lines)) lines).
  split; [apply dump_as_c_macro_unlines|].
  split; [apply length_imap|]. split.
  - intros k line Hk. by rewrite list_lookup_imap, Hk.
  - by intros ->.
Qed.

Lemma dump_as_c_macro_closed_form_witness :
  exists body,
    dump_as_c_macro "IRQS" ["a,"; "b"] "" 2
    = "" +:+ unlines (("#define " +:+ "IRQS" +:+ " " +:+ backslash) :: body)
    /\ body !! 1 = Some (str_mul tab 2 +:+ "b" +:+ "").
Proof.
  destruct (dump_as_c_macro_closed_form "IRQS" ["a,"; "b"] "" 2)
    as (body & Htext & _ & Hline & _).
  exists body. split; [exact Htext|].
  apply (Hline 1 "b"). reflexivity.
Defined.

Lemma count_newlines_app s1 s2 :
  count_newlines (s1 +:+ s2) = count_newlines s1 + count_newlines s2.
Proof.
  induction s1 as [|c s1 IH]; [reflexivity|].
  rewrite str_app_cons. simpl. rewrite IH. lia.
Qed.

Lemma count_newlines_unlines ls :
  Forall (fun l => count_newlines l = 0) ls ->
  count_newlines (unlines ls) = length ls.
Proof.
  induction 1 as [|l ls Hl _ IH]; [reflexivity|]. simpl.
  rewrite !count_newlines_app, Hl, IH. reflexivity.
Qed.

Lemma count_newlines_continued indent total n line :
  count_newlines (continued indent total n line) = count_newlines line.
Proof.
  unfold continued. rewrite !count_newlines_app.
  assert (count_newlines (str_mul tab indent) = 0) as ->.
  { induction indent as [|i IH]; [reflexivity|]. simpl.
    by rewrite count_newlines_app, IH. }
  by destruct (bool_decide (n + 1 < total)).
Qed.

Lemma count_newlines_file_lines interrupts :
  Forall (fun N => count_newlines N = 0) interrupts ->
  Forall (fun l => count_newlines l = 0) (file_lines interrupts).
Proof.
  intros Hnames. rewrite Forall_forall in Hnames.
  unfold file_lines, macro_text.
  apply Forall_cons. split; [reflexivity|].
  apply Forall_app. split; (apply Forall_cons; split; [reflexivity|]);
    apply Forall_forall; intros l Hl;
    apply elem_of_lookup_imap in Hl as (k & line & -> & Hk);
    rewrite count_newlines_continued.
  - rewrite vector_lines_map, list_lookup_fmap in Hk.
    destruct (interrupts !! k) as [N|] eqn:HN; [|done]. injection Hk as <-.
    destruct (truthy N); [|reflexivity].
    rewrite count_newlines_app, (Hnames N); [reflexivity|].
    by eapply list_elem_of_lookup_2.
  - rewrite handler_lines_weak_alias, list_lookup_fmap in Hk.
    destruct (filter _ interrupts !! k) as [N|] eqn:HN; [|done].
    injection Hk as <-.
    apply list_elem_of_lookup_2, list_elem_of_filter in HN as [_ HN].
    unfold weak_alias. rewrite !count_newlines_app, (Hnames N HN).
    reflexivity.
Qed.

Lemma length_file_lines interrupts :
  length (file_lines interrupts)
  = 3 + length interrupts + length (filter (fun N => N <> "") interrupts).
Proof.
  unfold file_lines, macro_text. simpl. rewrite length_app. simpl.
  rewrite !length_imap, length_vector_lines.
  rewrite handler_lines_weak_alias, length_fmap. lia.
Qed.

(** X7. When no handler name of the description contains a newline, the
    text written after a successful build has exactly 35 lines plus one per
    filled slot, counted by its newline characters (the comment, the two
    [#define] lines, 32 vector entries and the weak handler declarations,
    each printed line ended by one newline); so between 35 and 67 lines. *)
Theorem file_line_count (dev : Device) (table : list string) :
  get_peripheral_interrupts dev = Ok table ->
  Forall (fun e => count_newlines (name e) = 0) (entries dev) ->
  count_newlines (dump_macros table "")
  = 35 + length (filter (fun N => N <> "") table)
  /\ 35 <= count_newlines (dump_macros table "") <= 67.
Proof.
  intros Hrun Hnames. pose proof (builds_length _ _ Hrun) as Hlen.
  assert (Forall (fun N => count_newlines N = 0) table) as Htable.
  { apply Forall_forall. intros N HN.
    destruct (decide (N = "")) as [->|Hne]; [reflexivity|].
    apply list_elem_of_lookup_1 in HN as [k Hk].
    assert (k < 32) as Hlt by (apply lookup_lt_Some in Hk; lia).
    rewrite get_peripheral_interrupts_entries in Hrun.
    rewrite (table_after_prefix _ _ _ Hrun Hlt) in Hk. injection Hk as <-.
    destruct (first_name_elem _ _ _ Hne) as (e & He & _ & <-).
    rewrite Forall_forall in Hnames. by apply Hnames. }
  assert (count_newlines (dump_macros table "")
          = 35 + length (filter (fun N => N <> "") table)) as Hcount.
  { rewrite dump_macros_file_lines.
    rewrite (count_newlines_unlines _ (count_newlines_file_lines _ Htable)).
    rewrite length_file_lines, Hlen. reflexivity. }
  split; [exact Hcount|]. rewrite Hcount.
  pose proof (length_filter (fun N => N <> "") table). lia.
Qed.

Lemma file_line_count_witness :
  count_newlines (dump_macros power_clock_radio_table "")
  = 35 + length (filter (fun N => N <> "") power_clock_radio_table)
  /\ 35 <= count_newlines (dump_macros power_clock_radio_table "") <= 67.
Proof.
  apply (file_line_count power_clock_radio).
  - reflexivity.
  - repeat constructor.
Defined.

Lemma handler_lines_nil interrupts :
  handler_lines interrupts = [] <-> Forall (fun N => N = "") interrupts.
Proof.
  rewrite handler_lines_weak_alias. split.
  - intros Hnil%fmap_nil_inv. apply Forall_forall. intros N HN.
    destruct (decide (N = "")) as [->|Hne]; [reflexivity|].
    by destruct (filter_nil_not_elem_of _ _ N Hnil Hne).
  - intros Hall. rewrite filter_none; [reflexivity|].
    eapply Forall_impl; [exact Hall|]. simpl. by intros N -> ?.
Qed.

Lemma file_lines_last interrupts :
  last (file_lines interrupts)
  = Some (match last (filter (fun N => N <> "") interrupts) with
          | Some N => weak_alias N
          | None => "#define PERIPHERAL_INTERRUPT_HANDLERS " +:+ backslash
          end).
Proof.
  unfold file_lines. rewrite app_comm_cons, last_app.
  rewrite handler_lines_weak_alias. unfold macro_text.
  destruct (filter (fun N => N <> "") interrupts) as [|N named _]
    using rev_ind; [reflexivity|].
  rewrite last_snoc, fmap_app, imap_app. simpl.
  rewrite app_comm_cons, last_snoc. simpl. f_equal.
  rewrite continued_0, length_app. simpl.
  rewrite bool_decide_eq_false_2 by lia. apply str_app_nil_r.
Qed.

(** X8. How the text written by [dump_macros] ends. If some slot holds a
    name, it ends with the weak handler declaration of the last such slot
    and a newline, with no continuation backslash. If no slot holds a name
    the handler macro has no body, and that is the only case in which it
    has none: the text then ends with the
    [#define PERIPHERAL_INTERRUPT_HANDLERS] line, its continuation backslash
    and a newline, with nothing to continue into. *)
Theorem file_last_line (interrupts : list string) (outfile : string) :
  (handler_lines interrupts = [] <-> Forall (fun N => N = "") interrupts)
  /\ exists init,
       file_lines interrupts
       = init
         ++ [match last (filter (fun N => N <> "") interrupts) with
             | Some N => weak_alias N
             | None => "#define PERIPHERAL_INTERRUPT_HANDLERS " +:+ backslash
             end]
       /\ dump_macros interrupts outfile
          = outfile +:+ unlines init
            +:+ (match last (filter (fun N => N <> "") interrupts) with
                 | Some N => weak_alias N
                 | None =>
                     "#define PERIPHERAL_INTERRUPT_HANDLERS " +:+ backslash
                 end)
            +:+ newline.
Proof.
  split; [apply handler_lines_nil|].
  destruct (proj1 (last_Some _ _) (file_lines_last interrupts))
    as [init Hinit].
  exists init. split; [exact Hinit|].
  rewrite dump_macros_unlines. fold (file_lines interrupts).
  rewrite Hinit, unlines_app. simpl. by rewrite str_app_nil_r.
Qed.

Lemma file_last_line_witness :
  handler_lines (replicate 32 "") = []
  /\ exists init,
       dump_macros (replicate 32 "") ""
       = "" +:+ unlines init
         +:+ ("#define PERIPHERAL_INTERRUPT_HANDLERS " +:+ backslash)
         +:+ newline.
Proof.
  destruct (file_last_line (replicate 32 "") "")
    as [Hnil (init & _ & Htext)].
  split.
  - apply Hnil. repeat constructor.
  - exists init. exact Htext.
Defined.

Lemma str_app_inv_tail s1 s2 t : s1 +:+ t = s2 +:+ t -> s1 = s2.
Proof.
  intros Heq. apply (f_equal String.list_ascii_of_string) in Heq.
  rewrite !list_ascii_of_string_app in Heq. apply app_inv_tail in Heq.
  rewrite <- (String.string_of_list_ascii_of_string s1).
  rewrite <- (String.string_of_list_ascii_of_string s2). by rewrite Heq.
Qed.

Lemma handler_entry_not_reserved N : N +:+ "_Handler," <> "0, /* Reserved */".
Proof.
  intros Heq. apply (f_equal String.list_ascii_of_string) in Heq.
  rewrite list_ascii_of_string_app in Heq.
  apply (f_equal (@rev ascii)) in Heq. rewrite rev_app_distr in Heq.
  discriminate.
Qed.

(** X9. The body of the vector table determines the table: two lists of
    slots with the same vector lines are the same list. In particular no
    handler name can produce the reserved marker, and two different names
    never give the same entry. *)
Theorem vector_lines_inj (interrupts1 interrupts2 : list string) :
  vector_lines interrupts1 = vector_lines interrupts2 ->
  interrupts1 = interrupts2.
Proof.
  rewrite !vector_lines_map. revert interrupts2.
  induction interrupts1 as [|N1 t1 IH]; intros [|N2 t2]; simpl; try done.
  intros [= Hentry Hrest]. f_equal; [|by apply IH].
  destruct (truthy N1) eqn:H1, (truthy N2) eqn:H2.
  - by apply str_app_inv_tail in Hentry.
  - by apply handler_entry_not_reserved in Hentry.
  - symmetry in Hentry. by apply handler_entry_not_reserved in Hentry.
  - apply truthy_false in H1, H2. congruence.
Qed.

Lemma vector_lines_inj_witness :
  ["POWER_CLOCK"; "RADIO"] ++ replicate 30 "" = power_clock_radio_table.
Proof.
  apply vector_lines_inj. reflexivity.
Defined.


